(** * Flowpath core: buffer pool, queues, system registry and key gather

    A shallow embedding of the parts of the flowpath dataplane that the
    specification talks about:

    - [fp-lite/buffer.hpp]: [Buffer], [Pool] (constructor, [operator[]],
      [alloc], [dealloc]) and, from the queue header that follows it,
      [Queue] and [Locked_queue];
    - the system file: [create_dataplane], [delete_dataplane],
      [load_application], [unload_application], [fp_gather],
      [fp_create_table].

    C++ behaviour the standard leaves undefined (reading [top()] of an empty
    priority queue, indexing a vector out of range, [erase(end())], reading
    a [va_list] past its last argument) is an explicit result, [Undefined];
    a thrown exception is [Throw]; a loop that is cut off by the fuel of the
    model is [Diverges]. *)

From stdpp Require Import gmap strings list fin_maps.
From Stdlib Require Import ZArith Lia.

Open Scope Z_scope.

(** ** Results of a call *)

(** What the code throws: every [throw] in the system file throws a
    [std::string]; [unordered_map::at] throws [std::out_of_range]. *)
Inductive exn : Type :=
| StdString (msg : string)
| OutOfRange
| UnboundField.

Inductive outcome (A : Type) : Type :=
| Ok (a : A)
| Throw (e : exn)
| Undefined
| Diverges.

Arguments Ok {A} a.
Arguments Throw {A} e.
Arguments Undefined {A}.
Arguments Diverges {A}.

Definition bind {A B : Type} (k : A -> outcome B) (r : outcome A) : outcome B :=
  match r with
  | Ok a => k a
  | Throw e => Throw e
  | Undefined => Undefined
  | Diverges => Diverges
  end.

#[global] Instance outcome_ret : MRet outcome := @Ok.
#[global] Instance outcome_bind : MBind outcome := @bind.

(** ** Memory cells *)

(** A byte of raw memory. [new Byte[2048]] and a local [Byte buf[...]] are
    not initialised, so a cell either holds a byte or is indeterminate. *)
Definition Cell : Type := option Byte.byte.

(** The name of a dataplane stands for the [Dataplane*] that buffers and
    contexts carry around. *)
Definition Dataplane_ref : Type := string.

(** ** Context *)

Record Binding : Type := mkBinding { b_offset : Z; b_length : Z }.

(** Modelled from the spec: [Context] (context.hpp is not part of the
    sources). The context holds the raw packet bytes, the header cursor and
    the field bindings, a map from field id to (absolute offset, length);
    [get_field_binding] fails with [UnboundField] for an unknown id and
    [get_field] returns a view into packet memory at an offset. *)
Record Context : Type := mkContext {
  cxt_dp : Dataplane_ref;
  cxt_packet : list Cell;
  cxt_offset : Z;
  cxt_fields : gmap Z Binding
}.

Definition Context_ctor (dp : Dataplane_ref) (data : list Cell) : Context :=
  {| cxt_dp := dp; cxt_packet := data; cxt_offset := 0; cxt_fields := ∅ |}.

Definition get_field_binding (cxt : Context) (f : Z) : outcome Binding :=
  match cxt_fields cxt !! f with
  | Some b => Ok b
  | None => Throw UnboundField
  end.

(** [get_field] gives a pointer [p]; the bytes [p .. p + len) are what a
    caller can read through it. Reading outside the packet is undefined. *)
Definition get_field (cxt : Context) (off len : Z) : outcome (list Cell) :=
  if bool_decide (0 <= off /\ 0 <= len /\ off + len <= Z.of_nat (length (cxt_packet cxt)))
  then Ok (take (Z.to_nat len) (drop (Z.to_nat off) (cxt_packet cxt)))
  else Undefined.

(** ** Buffer *)

Definition buffer_bytes : Z := 2048.

Record Buffer : Type := mkBuffer {
  id_ : Z;
  data_ : list Cell;
  cxt_ : Context
}.

(** [Buffer(int id, Dataplane* dp)]. *)
Definition Buffer_ctor (id : Z) (dp : Dataplane_ref) : Buffer :=
  let data := replicate (Z.to_nat buffer_bytes) (None : Cell) in
  {| id_ := id; data_ := data; cxt_ := Context_ctor dp data |}.

(** [int id() const]. *)
Definition Buffer_id (b : Buffer) : Z := id_ b.

(** ** The free list: [std::priority_queue<int, std::vector<int>, std::greater<int>>]

    A priority queue ordered by [greater] is a multiset of integers whose
    [top] is a least element and whose [pop] removes one copy of it. *)
Module Heap.

Definition t : Type := list Z.

Definition empty (h : t) : bool :=
  match h with [] => true | _ :: _ => false end.

Definition push (x : Z) (h : t) : t := x :: h.

Fixpoint least (x : Z) (h : list Z) : Z :=
  match h with
  | [] => x
  | y :: r => least (Z.min x y) r
  end.

(** [top()]; undefined on an empty queue, here [None]. *)
Definition top (h : t) : option Z :=
  match h with
  | [] => None
  | x :: r => Some (least x r)
  end.

Fixpoint remove1 (x : Z) (h : list Z) : list Z :=
  match h with
  | [] => []
  | y :: r => if bool_decide (x = y) then r else y :: remove1 x r
  end.

(** [pop()]; undefined on an empty queue, here [None]. *)
Definition pop (h : t) : option t :=
  match top h with
  | None => None
  | Some m => Some (remove1 m h)
  end.

End Heap.

(** ** Pool *)

(** [mutex_] only orders the heap operations of different threads; in this
    sequential model it is unlocked before and after every call and is left
    out of the state. *)
Record Pool : Type := mkPool {
  pool_data : list Buffer;   (* data_ *)
  pool_heap : Heap.t         (* heap_ *)
}.

(** One round of the constructor's [for] loop:
    [heap_.push(i); data_.push_back(Buffer(i, dp));] *)
Definition Pool_ctor_body (dp : Dataplane_ref) (i : Z) (p : Pool) : Pool :=
  {| pool_data := pool_data p ++ [Buffer_ctor i dp];
     pool_heap := Heap.push i (pool_heap p) |}.

(** [for (int i = 0; i < size; i++)], entered with [rounds] rounds left. *)
Fixpoint Pool_ctor_loop (rounds : nat) (dp : Dataplane_ref) (i : Z) (p : Pool) : Pool :=
  match rounds with
  | O => p
  | S rounds' => Pool_ctor_loop rounds' dp (i + 1) (Pool_ctor_body dp i p)
  end.

(** [Pool::Pool(int size, Dataplane* dp)]: the loop runs [size] times, not
    at all when [size <= 0]. *)
Definition Pool_ctor (size : Z) (dp : Dataplane_ref) : Pool :=
  Pool_ctor_loop (Z.to_nat size) dp 0 {| pool_data := []; pool_heap := [] |}.

(** [Pool::Pool(Dataplane* dp)]. *)
Definition Pool_default (dp : Dataplane_ref) : Pool := Pool_ctor 4096 dp.

(** [data_[idx]]: a vector indexed out of range is undefined. *)
Definition Pool_get (p : Pool) (idx : Z) : outcome Buffer :=
  if bool_decide (0 <= idx)
  then match pool_data p !! Z.to_nat idx with
       | Some b => Ok b
       | None => Undefined
       end
  else Undefined.

(** [Pool::alloc()]. The wait loop is commented out in the source, so the
    heap is read whatever it holds. *)
Definition alloc (p : Pool) : outcome (Buffer * Pool) :=
  match Heap.top (pool_heap p), Heap.pop (pool_heap p) with
  | Some id, Some h' =>
      b ← Pool_get p id;
      Ok (b, {| pool_data := pool_data p; pool_heap := h' |})
  | _, _ => Undefined
  end.

(** [Pool::dealloc(int id)]. *)
Definition dealloc (p : Pool) (id : Z) : Pool :=
  {| pool_data := pool_data p; pool_heap := Heap.push id (pool_heap p) |}.

(** ** Locked_queue *)

Definition INT_MAX : Z := 2147483647.

(** Conversion of an unsigned size to [int]: the value modulo 2^32, read as
    a signed 32-bit number. *)
Definition to_int (z : Z) : Z := (z + 2 ^ 31) mod 2 ^ 32 - 2 ^ 31.

Section Locked_queue.

Variable T : Type.

(** [std::queue<T> queue_]; the front of the queue is the head of the
    list. [mutex_] is left out as for the pool. *)
Definition Locked_queue : Type := list T.

(** [int size() { return queue_.size(); }] *)
Definition Locked_queue_size (q : Locked_queue) : Z :=
  to_int (Z.of_nat (length q)).

(** [bool empty() { return size(); }]: an [int] converts to [true] when
    it is not zero. *)
Definition Locked_queue_empty (q : Locked_queue) : bool :=
  negb (Locked_queue_size q =? 0).

Definition Locked_queue_enqueue (v : T) (q : Locked_queue) : Locked_queue :=
  q ++ [v].

(** [bool dequeue(T& v)], which tests [queue_.size()] itself: the first
    component is the returned flag, the second what [v] holds afterwards. *)
Definition Locked_queue_dequeue (v : T) (q : Locked_queue) : bool * T * Locked_queue :=
  match q with
  | x :: q' => (true, x, q')
  | [] => (false, v, q)
  end.

End Locked_queue.

Arguments Locked_queue_size {T} q.
Arguments Locked_queue_empty {T} q.
Arguments Locked_queue_enqueue {T} v q.
Arguments Locked_queue_dequeue {T} v q.

(** ** Applications, tables and dataplanes *)

Inductive App_State : Type := INIT | READY | RUNNING | STOPPED.

(** [Application(char const* name) : lib_(name), state_(INIT)]; of the
    library only its path is kept. *)
Record Application : Type := mkApplication {
  lib_path : string;
  state_ : App_State
}.

Definition Application_ctor (name : string) : Application :=
  {| lib_path := name; state_ := INIT |}.

(** [fp::Table::Type]. The enumerators are [EXACT], [PREFIX] and
    [WILDCARD]; [Other_type v] is any other value the enumeration can be
    made to hold, which is what the [default:] branch of
    [fp_create_table] is for. *)
Inductive Table_Type : Type :=
| EXACT
| PREFIX
| WILDCARD
| Other_type (v : Z).

(** Modelled from the spec: [Hash_table] (table.hpp is not part of the
    sources). A table has an id, a size and a key size. *)
Record Table : Type := mkTable {
  tbl_id : Z;
  tbl_size : Z;
  tbl_key_size : Z;
  tbl_type : Table_Type
}.

Definition Hash_table_ctor (id size key_width : Z) : Table :=
  {| tbl_id := id; tbl_size := size; tbl_key_size := key_width; tbl_type := EXACT |}.

(** Modelled from the spec: [Dataplane] (dataplane.hpp is not part of the
    sources). A dataplane has a name, refers to its application and owns an
    ordered list of tables, empty when it is made. *)
Record Dataplane : Type := mkDataplane {
  dp_name : string;
  dp_app : string;
  dp_tables : list Table
}.

Definition Dataplane_ctor (name app : string) : Dataplane :=
  {| dp_name := name; dp_app := app; dp_tables := [] |}.

(** ** The system tables

    [module_table] and [dataplane_table] are used as
    [std::unordered_map]s keyed by a string: [find], [end], [insert], [at]
    and [erase]. *)

(** [m.insert({k, v})] leaves an existing entry alone. *)
Definition umap_insert {V : Type} (k : string) (v : V) (m : gmap string V) : gmap string V :=
  match m !! k with
  | Some _ => m
  | None => <[k := v]> m
  end.

(** [m.at(k)] throws [std::out_of_range] for a missing key. *)
Definition umap_at {V : Type} (k : string) (m : gmap string V) : outcome V :=
  match m !! k with
  | Some v => Ok v
  | None => Throw OutOfRange
  end.

(** [m.erase(it)] with [it = m.find(k)]: erasing the end iterator is
    undefined. *)
Definition umap_erase_found {V : Type} (k : string) (m : gmap string V) : outcome (gmap string V) :=
  match m !! k with
  | Some _ => Ok (delete k m)
  | None => Undefined
  end.

Definition create_dataplane (name app : string) (dataplane_table : gmap string Dataplane)
  : outcome (Dataplane * gmap string Dataplane) :=
  if bool_decide (is_Some (dataplane_table !! name))
  then Throw (StdString "Data plane name already exists")
  else
    let dataplane_table' := umap_insert name (Dataplane_ctor name app) dataplane_table in
    dp ← umap_at name dataplane_table';
    Ok (dp, dataplane_table').

Definition delete_dataplane (name : string) (dataplane_table : gmap string Dataplane)
  : outcome (gmap string Dataplane) :=
  if bool_decide (is_Some (dataplane_table !! name))
  then umap_erase_found name dataplane_table
  else Throw (StdString "Data plane name not in use").

Definition load_application (path : string) (module_table : gmap string Application)
  : outcome (gmap string Application) :=
  if bool_decide (is_Some (module_table !! path))
  then Throw (StdString ("Application at '" +:+ path +:+ "' has already been loaded"))
  else Ok (umap_insert path (Application_ctor path) module_table).

Definition unload_application (path : string) (module_table : gmap string Application)
  : outcome (gmap string Application) :=
  if bool_decide (is_Some (module_table !! path))
  then Throw (StdString ("Application at '" +:+ path +:+ "' is not loaded."))
  else umap_erase_found path module_table.

(** [fp_create_table]: the new table pointer ([None] is [nullptr]) and the
    dataplane afterwards. *)
Definition fp_create_table (dp : Dataplane) (id size key_width : Z) (type : Table_Type)
  : outcome (option Table * Dataplane) :=
  match type with
  | EXACT =>
      let tbl := Hash_table_ctor id size key_width in
      Ok (Some tbl,
          {| dp_name := dp_name dp; dp_app := dp_app dp;
             dp_tables := dp_tables dp ++ [tbl] |})
  | PREFIX => Ok (None, dp)
  | WILDCARD => Ok (None, dp)
  | Other_type _ => Throw (StdString "Unknown table type given")
  end.

(** ** Keys and the gather *)

(** [fp::key_size], the fixed size of the gather buffer; the source's
    comment gives it as 128 bytes. *)
Definition key_size : Z := 128.

Definition Key : Type := list Cell.

(** Modelled from the spec: [Key] (types.hpp is not part of the sources).
    [Key(buf, len)] is a byte buffer of exactly [len] bytes, the first
    [len] bytes of [buf]; reading more than [buf] holds is undefined. *)
Definition Key_ctor (buf : list Cell) (len : Z) : outcome Key :=
  if bool_decide (0 <= len /\ len <= Z.of_nat (length buf))
  then Ok (take (Z.to_nat len) buf)
  else Undefined.

(** [std::copy(p, p + len, &buf[j])]: the cells of [src] overwrite [buf]
    from position [j] on; writing past the end of [buf] is undefined. *)
Definition copy_into (src : list Cell) (j : Z) (buf : list Cell) : outcome (list Cell) :=
  if bool_decide (0 <= j /\ j + Z.of_nat (length src) <= Z.of_nat (length buf))
  then Ok (take (Z.to_nat j) buf ++ src ++ drop (Z.to_nat j + length src) buf)
  else Undefined.

(** [va_arg(args, int)]: the next argument and the rest of the list;
    reading past the last argument is undefined. *)
Definition va_arg (args : list Z) : outcome (Z * list Z) :=
  match args with
  | f :: args' => Ok (f, args')
  | [] => Undefined
  end.

(** The [while (i < n)] loop of [fp_gather]. The body reads the next field
    id, looks up its binding, copies the field into [buf] at [j] and adds
    its length to [j]; it does not change [i]. *)
Fixpoint fp_gather_loop (fuel : nat) (cxt : Context) (n i j : Z)
    (args : list Z) (buf : list Cell) : outcome (list Cell) :=
  match fuel with
  | O => Diverges
  | S fuel' =>
      if bool_decide (i < n)
      then
        '(f, args') ← va_arg args;
        b ← get_field_binding cxt f;
        p ← get_field cxt (b_offset b) (b_length b);
        buf' ← copy_into p j buf;
        fp_gather_loop fuel' cxt n i (j + b_length b) args' buf'
      else Ok buf
  end.

(** [fp_gather(cxt, key_width, n, args)]. *)
Definition fp_gather (fuel : nat) (cxt : Context) (key_width n : Z) (args : list Z)
  : outcome Key :=
  buf ← fp_gather_loop fuel cxt n 0 0 args (replicate (Z.to_nat key_size) (None : Cell));
  Key_ctor buf key_width.

(** What the specification asks of a gather: the bytes of the listed
    fields, one after the other. *)
Fixpoint field_bytes (cxt : Context) (args : list Z) : option (list Cell) :=
  match args with
  | [] => Some []
  | f :: args' =>
      match get_field_binding cxt f with
      | Ok b =>
          match get_field cxt (b_offset b) (b_length b), field_bytes cxt args' with
          | Ok p, Some r => Some (p ++ r)
          | _, _ => None
          end
      | _ => None
      end
  end.

(** The summed lengths of the listed fields that are bound. *)
Fixpoint field_lengths (cxt : Context) (args : list Z) : Z :=
  match args with
  | [] => 0
  | f :: args' =>
      match cxt_fields cxt !! f with
      | Some b => b_length b + field_lengths cxt args'
      | None => field_lengths cxt args'
      end
  end.

(** ** Pool runs with the set of buffers handed out

    The pool itself does not record which buffers are in use. A run keeps
    that set beside the pool: [alloc] adds the id of the buffer it returns,
    [dealloc] takes the id it is given out of it. *)

Inductive pool_op : Type :=
| Alloc
| Dealloc (id : Z).

Record pool_run : Type := mkRun {
  run_pool : Pool;
  run_allocated : list Z
}.

Definition run_op (o : pool_op) (st : pool_run) : outcome pool_run :=
  match o with
  | Alloc =>
      '(b, p') ← alloc (run_pool st);
      Ok {| run_pool := p'; run_allocated := Buffer_id b :: run_allocated st |}
  | Dealloc id =>
      Ok {| run_pool := dealloc (run_pool st) id;
            run_allocated := Heap.remove1 id (run_allocated st) |}
  end.

Fixpoint run_ops (ops : list pool_op) (st : pool_run) : outcome pool_run :=
  match ops with
  | [] => Ok st
  | o :: ops' => st' ← run_op o st; run_ops ops' st'
  end.

(** The calls the specification allows: [alloc] with a non-empty free set,
    [dealloc] of an index that is handed out at that moment. *)
Definition op_allowed (o : pool_op) (st : pool_run) : bool :=
  match o with
  | Alloc => negb (Heap.empty (pool_heap (run_pool st)))
  | Dealloc id => bool_decide (id ∈ run_allocated st)
  end.

Fixpoint ops_allowed (ops : list pool_op) (st : pool_run) : bool :=
  match ops with
  | [] => true
  | o :: ops' =>
      op_allowed o st &&
      match run_op o st with
      | Ok st' => ops_allowed ops' st'
      | _ => true
      end
  end.

Definition run_start (size : Z) (dp : Dataplane_ref) : pool_run :=
  {| run_pool := Pool_ctor size dp; run_allocated := [] |}.

(** An index is in exactly one of the free heap and the allocated set, and
    there once. *)
Definition in_one_place (i : Z) (st : pool_run) : Prop :=
  (((i ∈ pool_heap (run_pool st)) /\ (i ∉ run_allocated st)) \/
   ((i ∉ pool_heap (run_pool st)) /\ (i ∈ run_allocated st))) /\
  NoDup (pool_heap (run_pool st) ++ run_allocated st).

(** A pool is well formed when the buffer at position [i] has id [i] and
    the free heap holds indices of the store only. *)
Definition pool_ok (p : Pool) : Prop :=
  Buffer_id <$> pool_data p = seqZ 0 (Z.of_nat (length (pool_data p))) /\
  Forall (fun x => 0 <= x < Z.of_nat (length (pool_data p))) (pool_heap p).

(** What a run keeps true of a pool made with [size]: the buffer ids of
    the store are [0 .. size-1] in order, and the free heap together with
    the handed-out ids is a rearrangement of [0 .. size-1]. *)
Definition run_inv (size : Z) (st : pool_run) : Prop :=
  Buffer_id <$> pool_data (run_pool st) = seqZ 0 size /\
  pool_heap (run_pool st) ++ run_allocated st ≡ₚ seqZ 0 size.

(** The context of scenario S1: a packet of the four bytes 01 02 03 04 with
    field 10 bound to all four of them. *)
Definition cxt_S1 : Context :=
  {| cxt_dp := "dp0";
     cxt_packet := [Some Byte.x01; Some Byte.x02; Some Byte.x03; Some Byte.x04];
     cxt_offset := 0;
     cxt_fields := {[ 10 := mkBinding 0 4 ]} |}.

(** ** Callers of the pool and of the queues *)

(** A port driver that takes [k] buffers one after the other: the ids of
    the buffers it is given, in the order of the calls, and the pool
    afterwards. *)
Fixpoint alloc_many (k : nat) (p : Pool) : outcome (list Z * Pool) :=
  match k with
  | O => Ok ([], p)
  | S k' =>
      '(b, p') ← alloc p;
      '(ids, p'') ← alloc_many k' p';
      Ok (Buffer_id b :: ids, p'')
  end.

(** ** Queue *)

Section Queue.

Variable T : Type.

(** [std::queue<T> queue_], front at the head. *)
Definition Queue : Type := list T.

(** [void enqueue(T v) { queue_.push(v); }] *)
Definition Queue_enqueue (v : T) (q : Queue) : Queue := q ++ [v].

(** [T dequeue()]: [front()] and [pop()] with no test; on an empty queue
    both are undefined. *)
Definition Queue_dequeue (q : Queue) : outcome (T * Queue) :=
  match q with
  | x :: q' => Ok (x, q')
  | [] => Undefined
  end.

(** [int size() const { return queue_.size(); }] *)
Definition Queue_size (q : Queue) : Z := to_int (Z.of_nat (length q)).

(** [bool empty() const { return queue_.empty(); }] *)
Definition Queue_empty (q : Queue) : bool :=
  match q with [] => true | _ :: _ => false end.

(** [k] calls of [dequeue] in a row: what they return, in order. *)
Fixpoint Queue_dequeue_many (k : nat) (q : Queue) : outcome (list T * Queue) :=
  match k with
  | O => Ok ([], q)
  | S k' =>
      '(x, q') ← Queue_dequeue q;
      '(xs, q'') ← Queue_dequeue_many k' q';
      Ok (x :: xs, q'')
  end.

(** The consumer loop [while (q.dequeue(v)) ...] on a [Locked_queue], cut
    off after [k] rounds: the values it was handed, what [v] holds at the
    end and the queue at the end. *)
Fixpoint Locked_queue_drain (k : nat) (v : T) (q : Locked_queue T)
  : list T * T * Locked_queue T :=
  match k with
  | O => ([], v, q)
  | S k' =>
      match Locked_queue_dequeue v q with
      | (true, v', q') =>
          let '(xs, v'', q'') := Locked_queue_drain k' v' q' in (v' :: xs, v'', q'')
      | (false, v', q') => ([], v', q')
      end
  end.

End Queue.

Arguments Queue_enqueue {T} v q.
Arguments Queue_dequeue {T} q.
Arguments Queue_size {T} q.
Arguments Queue_empty {T} q.
Arguments Queue_dequeue_many {T} k q.
Arguments Locked_queue_drain {T} k v q.

(** A [Locked_queue] of 2^32 elements. *)
Definition queue_of_2_32 : Locked_queue unit := replicate (Z.to_nat (2 ^ 32)) tt.

(** One round of the [while] loop of [fp_gather], on the loop's variables
    [j], [args] and [buf] ([i] and [n] are not touched by a round): read the
    next field id, look up its binding, copy the field into [buf] at [j],
    add its length to [j]. *)
Definition fp_gather_body (cxt : Context) (st : Z * list Z * list Cell)
  : outcome (Z * list Z * list Cell) :=
  let '(j, args, buf) := st in
  '(f, args') ← va_arg args;
  b ← get_field_binding cxt f;
  p ← get_field cxt (b_offset b) (b_length b);
  buf' ← copy_into p j buf;
  Ok (j + b_length b, args', buf').

(** The loop's variables after [k] rounds. *)
Fixpoint fp_gather_rounds (k : nat) (cxt : Context) (st : Z * list Z * list Cell)
  : outcome (Z * list Z * list Cell) :=
  match k with
  | O => Ok st
  | S k' => st' ← fp_gather_body cxt st; fp_gather_rounds k' cxt st'
  end.

(** * Properties *)

(** ** The free heap *)

Lemma least_le (x : Z) (h : list Z) : Heap.least x h <= x.
Proof.
  revert x. induction h as [|y r IH]; intros x; simpl; [lia|].
  specialize (IH (Z.min x y)). lia.
Qed.

Lemma least_lower (x y : Z) (h : list Z) : y ∈ h -> Heap.least x h <= y.
Proof.
  revert x. induction h as [|z r IH]; intros x Hy; simpl.
  - by apply elem_of_nil in Hy.
  - apply elem_of_cons in Hy as [->|Hy].
    + pose proof (least_le (Z.min x z) r). lia.
    + by apply IH.
Qed.

Lemma least_elem (x : Z) (h : list Z) : Heap.least x h ∈ x :: h.
Proof.
  revert x. induction h as [|y r IH]; intros x; simpl.
  - apply list_elem_of_here.
  - specialize (IH (Z.min x y)).
    apply elem_of_cons in IH as [Heq|Hin].
    + rewrite Heq. destruct (Z.min_spec x y) as [[_ ->]|[_ ->]].
      * apply list_elem_of_here.
      * apply list_elem_of_further, list_elem_of_here.
    + by do 2 apply list_elem_of_further.
Qed.

Lemma remove1_perm (x : Z) (h : list Z) : x ∈ h -> h ≡ₚ x :: Heap.remove1 x h.
Proof.
  induction h as [|y r IH]; intros Hx; simpl.
  - by apply elem_of_nil in Hx.
  - case_bool_decide as Hxy; [by subst|].
    apply elem_of_cons in Hx as [?|Hx]; [done|].
    rewrite (IH Hx) at 1. apply Permutation_swap.
Qed.

Lemma top_pop (h : Heap.t) :
  h <> [] ->
  exists m, Heap.top h = Some m /\ Heap.pop h = Some (Heap.remove1 m h) /\
            m ∈ h /\ (forall y, y ∈ h -> m <= y) /\ h ≡ₚ m :: Heap.remove1 m h.
Proof.
  destruct h as [|x r]; [done|]. intros _.
  exists (Heap.least x r). unfold Heap.pop. cbn [Heap.top].
  pose proof (least_elem x r) as Hin.
  repeat split; [done| |by apply remove1_perm].
  intros y Hy. apply elem_of_cons in Hy as [->|Hy].
  - apply least_le.
  - by apply least_lower.
Qed.

Lemma top_empty (h : Heap.t) : h = [] -> Heap.top h = None.
Proof. by intros ->. Qed.

(** ** The pool constructor *)

Lemma Pool_ctor_loop_data (rounds : nat) (dp : Dataplane_ref) (i : Z) (p : Pool) :
  pool_data (Pool_ctor_loop rounds dp i p) =
  pool_data p ++ ((fun k => Buffer_ctor k dp) <$> seqZ i (Z.of_nat rounds)).
Proof.
  revert i p. induction rounds as [|r IH]; intros i p.
  - simpl. by rewrite app_nil_r.
  - cbn [Pool_ctor_loop]. rewrite IH. cbn [Pool_ctor_body pool_data].
    rewrite <- app_assoc. f_equal.
    rewrite (seqZ_cons i (Z.of_nat (S r))) by lia.
    cbn [fmap list_fmap app]. do 3 f_equal; lia.
Qed.

Lemma Pool_ctor_loop_heap (rounds : nat) (dp : Dataplane_ref) (i : Z) (p : Pool) :
  pool_heap (Pool_ctor_loop rounds dp i p) ≡ₚ seqZ i (Z.of_nat rounds) ++ pool_heap p.
Proof.
  revert i p. induction rounds as [|r IH]; intros i p.
  - done.
  - cbn [Pool_ctor_loop]. rewrite IH. cbn [Pool_ctor_body pool_heap Heap.push].
    rewrite (seqZ_cons i (Z.of_nat (S r))) by lia.
    replace (Z.pred (Z.of_nat (S r))) with (Z.of_nat r) by lia.
    replace (Z.succ i) with (i + 1) by lia.
    cbn [app]. by rewrite Permutation_middle.
Qed.

Lemma seqZ_to_nat (m len : Z) : seqZ m (Z.of_nat (Z.to_nat len)) = seqZ m len.
Proof. unfold seqZ. by rewrite Nat2Z.id. Qed.

Lemma Pool_ctor_data (size : Z) (dp : Dataplane_ref) :
  pool_data (Pool_ctor size dp) = (fun k => Buffer_ctor k dp) <$> seqZ 0 size.
Proof. unfold Pool_ctor. by rewrite Pool_ctor_loop_data, seqZ_to_nat. Qed.

Lemma Pool_ctor_heap (size : Z) (dp : Dataplane_ref) :
  pool_heap (Pool_ctor size dp) ≡ₚ seqZ 0 size.
Proof.
  unfold Pool_ctor. by rewrite Pool_ctor_loop_heap, seqZ_to_nat, app_nil_r.
Qed.

Lemma Pool_ctor_length (size : Z) (dp : Dataplane_ref) :
  length (pool_data (Pool_ctor size dp)) = Z.to_nat size.
Proof. by rewrite Pool_ctor_data, length_fmap, length_seqZ. Qed.

Lemma Pool_ctor_ids (size : Z) (dp : Dataplane_ref) :
  Buffer_id <$> pool_data (Pool_ctor size dp) = seqZ 0 size.
Proof.
  rewrite Pool_ctor_data, <- list_fmap_compose.
  rewrite <- (list_fmap_id (seqZ 0 size)) at 2.
  by apply list_fmap_ext.
Qed.

Lemma Pool_ctor_ok (size : Z) (dp : Dataplane_ref) : pool_ok (Pool_ctor size dp).
Proof.
  split.
  - by rewrite Pool_ctor_ids, Pool_ctor_length, seqZ_to_nat.
  - rewrite Pool_ctor_heap, Pool_ctor_length. apply Forall_forall.
    intros x Hx. apply elem_of_seqZ in Hx. lia.
Qed.

(** ** Allocation and release *)

Lemma Pool_get_ok (p : Pool) (i : Z) :
  pool_ok p -> 0 <= i < Z.of_nat (length (pool_data p)) ->
  exists b, Pool_get p i = Ok b /\ Buffer_id b = i.
Proof.
  intros [Hids _] Hi. unfold Pool_get.
  rewrite bool_decide_eq_true_2 by lia.
  assert ((Buffer_id <$> pool_data p) !! Z.to_nat i = Some i) as Hl.
  { rewrite Hids, lookup_seqZ_lt by lia. f_equal. lia. }
  rewrite list_lookup_fmap in Hl.
  destruct (pool_data p !! Z.to_nat i) as [b|]; [|done].
  exists b. split; [done|]. by injection Hl.
Qed.

Lemma alloc_ok (p : Pool) :
  pool_ok p -> pool_heap p <> [] ->
  exists b p', alloc p = Ok (b, p') /\
    Buffer_id b ∈ pool_heap p /\
    (forall x, x ∈ pool_heap p -> Buffer_id b <= x) /\
    pool_heap p ≡ₚ Buffer_id b :: pool_heap p' /\
    pool_data p' = pool_data p /\
    Pool_get p (Buffer_id b) = Ok b.
Proof.
  intros Hok Hne.
  destruct (top_pop (pool_heap p) Hne) as (m & Htop & Hpop & Hin & Hlow & Hperm).
  assert (0 <= m < Z.of_nat (length (pool_data p))) as Hm.
  { destruct Hok as [_ Hrange]. rewrite Forall_forall in Hrange. by apply Hrange. }
  destruct (Pool_get_ok p m Hok Hm) as (b & Hget & Hid).
  exists b, {| pool_data := pool_data p; pool_heap := Heap.remove1 m (pool_heap p) |}.
  unfold alloc. rewrite Htop, Hpop, Hget, Hid. cbn.
  repeat split; done.
Qed.

Lemma alloc_keeps_ok (p p' : Pool) (b : Buffer) :
  pool_ok p -> alloc p = Ok (b, p') -> pool_ok p'.
Proof.
  intros Hok Ha.
  destruct (decide (pool_heap p = [])) as [He|Hne].
  { unfold alloc in Ha. by rewrite He in Ha. }
  destruct (alloc_ok p Hok Hne) as (b0 & p0 & Ha0 & _ & _ & Hperm & Hdata & _).
  rewrite Ha in Ha0. injection Ha0 as -> ->.
  destruct Hok as [Hids Hrange]. split; rewrite Hdata; [done|].
  rewrite Hperm in Hrange. by apply Forall_cons in Hrange as [_ ?].
Qed.

Lemma dealloc_keeps_ok (p : Pool) (i : Z) :
  pool_ok p -> 0 <= i < Z.of_nat (length (pool_data p)) -> pool_ok (dealloc p i).
Proof.
  intros [Hids Hrange] Hi. split; cbn; [done|]. by apply Forall_cons.
Qed.

Lemma alloc_data (q : Pool) :
  match alloc q with
  | Ok (_, q') => pool_data q' = pool_data q
  | _ => True
  end.
Proof.
  unfold alloc. destruct (Heap.top (pool_heap q)); [|done].
  destruct (Heap.pop (pool_heap q)); [|done].
  by destruct (Pool_get q z).
Qed.

Lemma alloc_no_throw (q : Pool) (e : exn) : alloc q <> Throw e.
Proof.
  unfold alloc. destruct (Heap.top (pool_heap q)); [|done].
  destruct (Heap.pop (pool_heap q)); [|done].
  unfold Pool_get. case_bool_decide; [|done].
  by destruct (pool_data q !! Z.to_nat z).
Qed.

Lemma alloc_no_diverge (q : Pool) : alloc q <> Diverges.
Proof.
  unfold alloc. destruct (Heap.top (pool_heap q)); [|done].
  destruct (Heap.pop (pool_heap q)); [|done].
  unfold Pool_get. case_bool_decide; [|done].
  by destruct (pool_data q !! Z.to_nat z).
Qed.

(** C10. A pool constructed with size [N] stores, at every position [i] of
    [0..N-1], a buffer whose [id()] is [i] (the ids of the store, in order,
    are [0, 1, ..., N-1]); its free heap holds exactly the indices
    [0..N-1]; and neither [alloc] nor [dealloc] changes the buffer store
    afterwards. *)
Theorem pool_store_fixed_at_construction (size : Z) (dp : Dataplane_ref) :
  length (pool_data (Pool_ctor size dp)) = Z.to_nat size /\
  Buffer_id <$> pool_data (Pool_ctor size dp) = seqZ 0 size /\
  (forall i, 0 <= i < size ->
     exists b, Pool_get (Pool_ctor size dp) i = Ok b /\ Buffer_id b = i) /\
  pool_heap (Pool_ctor size dp) ≡ₚ seqZ 0 size /\
  (forall q, match alloc q with
             | Ok (_, q') => pool_data q' = pool_data q
             | _ => True
             end) /\
  (forall q i, pool_data (dealloc q i) = pool_data q).
Proof.
  split; [apply Pool_ctor_length|].
  split; [apply Pool_ctor_ids|].
  split.
  { intros i Hi. apply Pool_get_ok; [apply Pool_ctor_ok|].
    rewrite Pool_ctor_length. lia. }
  split; [apply Pool_ctor_heap|].
  split; [apply alloc_data|done].
Qed.

(** C3 (as the code has it). With an empty free set [alloc] makes no check
    and does not wait: it reads the top of the empty heap, which is
    undefined behaviour. No call of [alloc] throws, so no [PoolExhausted]
    error reaches the caller, and no call of [alloc] loops. *)
Theorem alloc_on_empty_heap_is_undefined (p : Pool) :
  pool_heap p = [] ->
  alloc p = Undefined /\
  (forall q e, alloc q <> Throw e) /\
  (forall q, alloc q <> Diverges).
Proof.
  intros He. split; [|split; [apply alloc_no_throw|apply alloc_no_diverge]].
  unfold alloc. by rewrite He.
Qed.

Lemma alloc_on_empty_heap_witness :
  alloc (Pool_ctor 0 "dp0") = Undefined /\
  (forall q e, alloc q <> Throw e) /\
  (forall q, alloc q <> Diverges).
Proof. apply (alloc_on_empty_heap_is_undefined (Pool_ctor 0 "dp0")). reflexivity. Defined.

(** C3, counterexample: scenario S5. A pool of two buffers, both handed
    out; the third [alloc] does not fail with an error, its result is
    undefined. *)
Lemma alloc_exhausted_counterexample :
  exists st,
    run_ops [Alloc; Alloc] (run_start 2 "dp0") = Ok st /\
    pool_heap (run_pool st) = [] /\
    alloc (run_pool st) = Undefined /\
    (forall e, alloc (run_pool st) <> Throw e).
Proof.
  eexists. split; [vm_compute; reflexivity|].
  split; [reflexivity|]. split; [reflexivity|]. intros e. apply alloc_no_throw.
Qed.

(** C4. With a non-empty free set (of indices of the store), [alloc]
    returns the buffer whose index is the least element of the free set and
    takes one copy of that index out of the free set, leaving the rest.
    In particular, when index 0 is released into a pool whose free set was
    empty, the next [alloc] returns the buffer with index 0. *)
Theorem alloc_returns_least_free (p : Pool) :
  pool_ok p ->
  (pool_heap p <> [] ->
   exists b p', alloc p = Ok (b, p') /\
     Buffer_id b ∈ pool_heap p /\
     (forall x, x ∈ pool_heap p -> Buffer_id b <= x) /\
     pool_heap p ≡ₚ Buffer_id b :: pool_heap p' /\
     pool_data p' = pool_data p /\
     Pool_get p (Buffer_id b) = Ok b) /\
  (pool_heap p = [] -> pool_data p <> [] ->
   exists b p', alloc (dealloc p 0) = Ok (b, p') /\
     Buffer_id b = 0 /\ pool_heap p' = [] /\ Pool_get p 0 = Ok b).
Proof.
  intros Hok. split; [by apply alloc_ok|].
  intros He Hdata.
  assert (0 <= 0 < Z.of_nat (length (pool_data p))) as H0.
  { destruct (pool_data p); [done|]. cbn [length]. lia. }
  destruct (Pool_get_ok p 0 Hok H0) as (b & Hget & Hid).
  exists b, {| pool_data := pool_data p; pool_heap := [] |}.
  unfold alloc, dealloc. cbn [pool_heap pool_data]. rewrite He.
  cbn [Heap.push Heap.top Heap.pop Heap.least Heap.remove1].
  rewrite bool_decide_eq_true_2 by done.
  unfold Pool_get in *. cbn [pool_data]. destruct (bool_decide (0 <= 0)); [|done].
  destruct (pool_data p !! Z.to_nat 0); [|done].
  injection Hget as ->. done.
Qed.

Lemma alloc_returns_least_free_witness :
  (exists b p', alloc (Pool_ctor 2 "dp0") = Ok (b, p') /\
     Buffer_id b ∈ pool_heap (Pool_ctor 2 "dp0") /\
     (forall x, x ∈ pool_heap (Pool_ctor 2 "dp0") -> Buffer_id b <= x) /\
     pool_heap (Pool_ctor 2 "dp0") ≡ₚ Buffer_id b :: pool_heap p' /\
     pool_data p' = pool_data (Pool_ctor 2 "dp0") /\
     Pool_get (Pool_ctor 2 "dp0") (Buffer_id b) = Ok b) /\
  (exists b p',
     alloc (dealloc {| pool_data := pool_data (Pool_ctor 2 "dp0"); pool_heap := [] |} 0)
       = Ok (b, p') /\
     Buffer_id b = 0 /\ pool_heap p' = [] /\
     Pool_get {| pool_data := pool_data (Pool_ctor 2 "dp0"); pool_heap := [] |} 0 = Ok b).
Proof.
  split.
  - apply (alloc_returns_least_free (Pool_ctor 2 "dp0")).
    + split; [reflexivity|]. repeat constructor; cbn; lia.
    + discriminate.
  - apply (alloc_returns_least_free
             {| pool_data := pool_data (Pool_ctor 2 "dp0"); pool_heap := [] |}).
    + split; [reflexivity|]. constructor.
    + reflexivity.
    + discriminate.
Defined.

(** ** Runs of the pool *)

Lemma run_inv_length (size : Z) (st : pool_run) :
  run_inv size st -> length (pool_data (run_pool st)) = Z.to_nat size.
Proof.
  intros [Hids _].
  by rewrite <- (length_fmap Buffer_id), Hids, length_seqZ.
Qed.

Lemma run_inv_range (size : Z) (st : pool_run) (i : Z) :
  run_inv size st ->
  i ∈ pool_heap (run_pool st) ++ run_allocated st <-> 0 <= i < size.
Proof.
  intros [_ Hperm]. rewrite Hperm, elem_of_seqZ. lia.
Qed.

Lemma run_inv_ok (size : Z) (st : pool_run) :
  run_inv size st -> pool_ok (run_pool st).
Proof.
  intros Hinv. pose proof (run_inv_length size st Hinv) as Hlen.
  split.
  - destruct Hinv as [Hids _]. by rewrite Hids, Hlen, seqZ_to_nat.
  - apply Forall_forall. intros x Hx.
    assert (0 <= x < size) as Hr.
    { apply (run_inv_range size st x Hinv), elem_of_app. by left. }
    rewrite Hlen. lia.
Qed.

Lemma run_inv_start (size : Z) (dp : Dataplane_ref) : run_inv size (run_start size dp).
Proof.
  split; cbn.
  - apply Pool_ctor_ids.
  - by rewrite app_nil_r, Pool_ctor_heap.
Qed.

Lemma run_op_inv (size : Z) (o : pool_op) (st : pool_run) :
  run_inv size st -> op_allowed o st = true ->
  exists st', run_op o st = Ok st' /\ run_inv size st'.
Proof.
  intros Hinv Hal. destruct o as [|i]; cbn in Hal.
  - assert (pool_heap (run_pool st) <> []) as Hne.
    { intros He. by rewrite He in Hal. }
    destruct (alloc_ok _ (run_inv_ok size st Hinv) Hne)
      as (b & p' & Ha & _ & _ & Hperm & Hdata & _).
    eexists. cbn. rewrite Ha. cbn. split; [done|].
    destruct Hinv as [Hids Hall]. split; cbn.
    + by rewrite Hdata.
    + by rewrite <- Permutation_middle, app_comm_cons, <- Hperm.
  - apply bool_decide_eq_true in Hal.
    eexists. split; [done|].
    destruct Hinv as [Hids Hall]. split; cbn; [done|].
    rewrite (remove1_perm i _ Hal) in Hall.
    by rewrite <- Permutation_middle in Hall.
Qed.

Lemma run_ops_inv (size : Z) (ops : list pool_op) (st : pool_run) :
  run_inv size st -> ops_allowed ops st = true ->
  exists st', run_ops ops st = Ok st' /\ run_inv size st'.
Proof.
  revert st. induction ops as [|o ops IH]; intros st Hinv Hal.
  - by exists st.
  - cbn in Hal. apply andb_true_iff in Hal as [Ho Hrest].
    destruct (run_op_inv size o st Hinv Ho) as (st1 & Hrun & Hinv1).
    rewrite Hrun in Hrest. cbn. rewrite Hrun. cbn. by apply IH.
Qed.

Lemma ops_allowed_prefix (ops1 ops2 : list pool_op) (st : pool_run) :
  ops_allowed (ops1 ++ ops2) st = true -> ops_allowed ops1 st = true.
Proof.
  revert st. induction ops1 as [|o ops1 IH]; intros st Hal; [done|].
  cbn in *. apply andb_true_iff in Hal as [Ho Hrest].
  rewrite Ho. cbn. destruct (run_op o st); [by apply IH|done..].
Qed.

Lemma run_inv_one_place (size : Z) (st : pool_run) (i : Z) :
  run_inv size st -> 0 <= i < size -> in_one_place i st.
Proof.
  intros Hinv Hi.
  assert (NoDup (pool_heap (run_pool st) ++ run_allocated st)) as Hnd.
  { destruct Hinv as [_ Hperm]. rewrite Hperm. apply NoDup_seqZ. }
  split; [|done].
  apply (run_inv_range size st i Hinv) in Hi.
  apply NoDup_app in Hnd as (_ & Hdisj & _).
  apply elem_of_app in Hi as [Hh|Ha].
  - left. split; [done|]. by apply Hdisj.
  - right. split; [|done]. intros Hh. by apply (Hdisj i Hh).
Qed.

(** C5. Take a pool of [size] buffers and any sequence of [alloc] calls,
    each made with a non-empty free set, and [dealloc] calls, each given an
    index that is handed out at that moment. Then every call of the
    sequence succeeds and, after every prefix of it, each index of
    [0..size-1] is in exactly one of the free heap and the allocated set. *)
Theorem pool_index_in_exactly_one_place
    (size : Z) (dp : Dataplane_ref) (ops : list pool_op) :
  ops_allowed ops (run_start size dp) = true ->
  forall ops1 ops2, ops = ops1 ++ ops2 ->
    exists st, run_ops ops1 (run_start size dp) = Ok st /\
      forall i, 0 <= i < size -> in_one_place i st.
Proof.
  intros Hal ops1 ops2 ->. apply ops_allowed_prefix in Hal.
  destruct (run_ops_inv size ops1 _ (run_inv_start size dp) Hal) as (st & Hrun & Hinv).
  exists st. split; [done|]. intros i Hi. by apply (run_inv_one_place size).
Qed.

Lemma pool_index_in_exactly_one_place_witness :
  exists st,
    run_ops [Alloc; Alloc; Dealloc 0; Alloc; Dealloc 1] (run_start 3 "dp0") = Ok st /\
    forall i, 0 <= i < 3 -> in_one_place i st.
Proof.
  apply (pool_index_in_exactly_one_place 3 "dp0"
           [Alloc; Alloc; Dealloc 0; Alloc; Dealloc 1]
           ltac:(vm_compute; reflexivity)
           [Alloc; Alloc; Dealloc 0; Alloc; Dealloc 1] []).
  reflexivity.
Defined.

(** ** Locked_queue *)

Lemma to_int_small (z : Z) : 0 <= z <= INT_MAX -> to_int z = z.
Proof.
  unfold to_int, INT_MAX. intros Hz.
  rewrite Z.mod_small; lia.
Qed.

Lemma to_int_zero (z : Z) : to_int z = 0 <-> z mod 2 ^ 32 = 0.
Proof.
  unfold to_int.
  pose proof (Z.mod_pos_bound z (2 ^ 32) ltac:(lia)) as Hz.
  pose proof (Z.mod_pos_bound (z + 2 ^ 31) (2 ^ 32) ltac:(lia)) as Hs.
  pose proof (Z.div_mod z (2 ^ 32) ltac:(lia)) as Dz.
  pose proof (Z.div_mod (z + 2 ^ 31) (2 ^ 32) ltac:(lia)) as Ds.
  lia.
Qed.

(** C8 (as the code has it). For every state of a [Locked_queue],
    [empty()] is its [size()] converted to [bool]: it is true exactly when
    [size()] is not zero. [size()] is the element count narrowed to a
    32-bit [int], so [empty()] is true exactly when the count is not a
    multiple of 2^32; for a queue of fewer than 2^32 elements it is true
    exactly when the queue holds something and false exactly when it holds
    nothing (the reverse of an emptiness test). *)
Theorem Locked_queue_empty_is_size (T : Type) (q : Locked_queue T) :
  (Locked_queue_empty q = true <-> Locked_queue_size q <> 0) /\
  (Locked_queue_empty q = true <-> Z.of_nat (length q) mod 2 ^ 32 <> 0) /\
  (Z.of_nat (length q) < 2 ^ 32 ->
   (Locked_queue_empty q = true <-> q <> []) /\
   (Locked_queue_empty q = false <-> q = [])).
Proof.
  assert (Locked_queue_empty q = true <-> Locked_queue_size q <> 0) as Hsize.
  { unfold Locked_queue_empty.
    destruct (Z.eqb_spec (Locked_queue_size q) 0) as [He|Hne]; cbn.
    - split; [done|]. by intros Hn.
    - done. }
  assert (Locked_queue_empty q = true <-> Z.of_nat (length q) mod 2 ^ 32 <> 0) as Hmod.
  { rewrite Hsize. unfold Locked_queue_size. by rewrite to_int_zero. }
  split; [done|]. split; [done|]. intros Hlen.
  assert (Locked_queue_empty q = true <-> q <> []) as Hne.
  { rewrite Hmod, Z.mod_small by lia. destruct q as [|x q']; cbn [length].
    - split; [lia|done].
    - split; [done|lia]. }
  split; [done|]. split.
  - intros He. destruct q as [|x q']; [done|].
    assert (Locked_queue_empty (x :: q') = true) as Ht by by apply Hne.
    congruence.
  - intros Hq. destruct (Locked_queue_empty q) eqn:He; [|done].
    by destruct (proj1 Hne eq_refl).
Qed.

Lemma Locked_queue_empty_is_size_witness :
  (Locked_queue_empty [7; 8] = true <-> Locked_queue_size [7; 8] <> 0) /\
  (Locked_queue_empty [7; 8] = true <-> Z.of_nat (length [7; 8]) mod 2 ^ 32 <> 0) /\
  (Locked_queue_empty [7; 8] = true <-> [7; 8] <> []) /\
  (Locked_queue_empty [7; 8] = false <-> [7; 8] = []).
Proof.
  destruct (Locked_queue_empty_is_size Z [7; 8]) as (Hs & Hm & Hl).
  split; [exact Hs|]. split; [exact Hm|]. apply Hl. cbn. lia.
Defined.

(** C8, counterexample: a queue of 2^32 elements. It holds something, yet
    its [size()] is zero and its [empty()] is false. *)
Lemma Locked_queue_empty_counterexample :
  queue_of_2_32 <> [] /\
  Locked_queue_size queue_of_2_32 = 0 /\
  Locked_queue_empty queue_of_2_32 = false.
Proof.
  assert (Z.of_nat (length queue_of_2_32) = 2 ^ 32) as Hlen.
  { unfold queue_of_2_32. rewrite length_replicate. apply Z2Nat.id. lia. }
  assert (Locked_queue_size queue_of_2_32 = 0) as Hsize.
  { unfold Locked_queue_size. rewrite Hlen. reflexivity. }
  split.
  - intros He. rewrite He in Hlen. cbn [length] in Hlen. lia.
  - split; [exact Hsize|]. unfold Locked_queue_empty. rewrite Hsize. reflexivity.
Qed.

(** ** The system tables *)

(** C7. [unload_application(path)] throws exactly when the application at
    [path] is in the module table, the thrown message is the one that says
    the application is not loaded, and the call throws nothing else; when
    the application is not in the table nothing is thrown (the call goes on
    to erase the end iterator). *)
Theorem unload_application_throws_when_loaded
    (path : string) (module_table : gmap string Application) :
  (is_Some (module_table !! path) <->
   exists e, unload_application path module_table = Throw e) /\
  (forall e, unload_application path module_table = Throw e ->
     e = StdString ("Application at '" +:+ path +:+ "' is not loaded.")) /\
  (module_table !! path = None ->
     unload_application path module_table = Undefined).
Proof.
  unfold unload_application, umap_erase_found.
  case_bool_decide as Hl.
  - split; [|split].
    + split; [eauto|done].
    + intros e He. by injection He.
    + intros Hn. rewrite Hn in Hl. by destruct Hl.
  - assert (module_table !! path = None) as Hn.
    { by apply eq_None_not_Some. }
    rewrite Hn. split; [|split]; [|done..].
    split; [done|]. by intros [e He].
Qed.

(** C9. [create_dataplane(name, app)] throws the name-already-exists
    message, which reaches the caller as thrown, exactly when the registry
    already has a dataplane of that name, and then the registry is as it
    was; in every other case it returns the new dataplane made from [name]
    and [app], and the registry afterwards is the old one with exactly that
    one entry more, under [name]. *)
Theorem create_dataplane_duplicate_name
    (name app : string) (dataplane_table : gmap string Dataplane) :
  (is_Some (dataplane_table !! name) <->
   create_dataplane name app dataplane_table
     = Throw (StdString "Data plane name already exists")) /\
  (is_Some (dataplane_table !! name) <->
   forall r, create_dataplane name app dataplane_table <> Ok r) /\
  (dataplane_table !! name = None ->
   create_dataplane name app dataplane_table
     = Ok (Dataplane_ctor name app,
           <[name := Dataplane_ctor name app]> dataplane_table) /\
   (<[name := Dataplane_ctor name app]> dataplane_table) !! name
     = Some (Dataplane_ctor name app) /\
   delete name (<[name := Dataplane_ctor name app]> dataplane_table)
     = dataplane_table /\
   size (<[name := Dataplane_ctor name app]> dataplane_table)
     = S (size dataplane_table)).
Proof.
  unfold create_dataplane, umap_insert, umap_at.
  case_bool_decide as Hl.
  - split; [done|]. split; [done|].
    intros Hn. rewrite Hn in Hl. by destruct Hl.
  - assert (dataplane_table !! name = None) as Hn.
    { by apply eq_None_not_Some. }
    rewrite Hn, lookup_insert_eq. cbn.
    split; [split; [done|discriminate]|].
    split.
    { split; [done|]. intros Hno. by destruct (Hno (Dataplane_ctor name app,
        <[name := Dataplane_ctor name app]> dataplane_table)). }
    intros _. split; [done|]. split; [done|].
    split; [by apply delete_insert_id|by apply map_size_insert_None].
Qed.

(** ** Tables *)

(** C6 (as the code has it). [fp_create_table] asked for a [PREFIX] or a
    [WILDCARD] table makes no table: it returns the null pointer and leaves
    the dataplane's table list as it was. *)
Theorem fp_create_table_reserved_types
    (dp : Dataplane) (id size key_width : Z) :
  fp_create_table dp id size key_width PREFIX = Ok (None, dp) /\
  fp_create_table dp id size key_width WILDCARD = Ok (None, dp).
Proof. split; reflexivity. Qed.

(** C6, counterexample: a [PREFIX] table asked of a fresh dataplane. No
    table comes back on which [find] could be called, and none is
    registered. *)
Lemma fp_create_table_prefix_counterexample :
  fp_create_table (Dataplane_ctor "dp0" "app") 0 16 4 PREFIX
    = Ok (None, Dataplane_ctor "dp0" "app") /\
  (forall tbl dp', fp_create_table (Dataplane_ctor "dp0" "app") 0 16 4 PREFIX
                   <> Ok (Some tbl, dp')) /\
  dp_tables (Dataplane_ctor "dp0" "app") = [].
Proof. split; [reflexivity|]. split; [discriminate|reflexivity]. Qed.

(** ** The gather *)

Ltac unfold_bind := unfold mbind, outcome_bind, bind.

Lemma fp_gather_loop_no_exit (fuel : nat) (cxt : Context) (n i j : Z)
    (args : list Z) (buf r : list Cell) :
  i < n -> fp_gather_loop fuel cxt n i j args buf <> Ok r.
Proof.
  intros Hi. revert j args buf.
  induction fuel as [|fuel IH]; intros j args buf; cbn [fp_gather_loop]; [done|].
  rewrite bool_decide_eq_true_2 by done. unfold_bind.
  destruct (va_arg args) as [[f args']| | |]; [|done..].
  destruct (get_field_binding cxt f) as [b| | |]; [|done..].
  destruct (get_field cxt (b_offset b) (b_length b)) as [p| | |]; [|done..].
  destruct (copy_into p j buf) as [buf'| | |]; [|done..].
  apply IH.
Qed.

Lemma fp_gather_no_key (fuel : nat) (cxt : Context) (key_width n : Z)
    (args : list Z) (k : Key) :
  0 < n -> fp_gather fuel cxt key_width n args <> Ok k.
Proof.
  intros Hn. unfold fp_gather. unfold_bind.
  destruct (fp_gather_loop fuel cxt n 0 0 args _) as [buf| | |] eqn:Hloop; [|done..].
  by apply fp_gather_loop_no_exit in Hloop.
Qed.

Lemma get_field_length (cxt : Context) (off len : Z) (p : list Cell) :
  get_field cxt off len = Ok p -> Z.of_nat (length p) = len.
Proof.
  unfold get_field. case_bool_decide as Hb; [|done].
  intros [= <-]. rewrite length_take, length_drop. lia.
Qed.

Lemma copy_into_length (src : list Cell) (j : Z) (buf buf' : list Cell) :
  copy_into src j buf = Ok buf' -> length buf' = length buf.
Proof.
  unfold copy_into. case_bool_decide as Hb; [|done].
  intros [= <-]. rewrite !length_app, length_take, length_drop. lia.
Qed.


(** C1, at the input of scenario S1: one listed field, bound to the four
    packet bytes, and a key width of four. The bytes asked for are
    01 02 03 04 and their length is the key width, yet the gather returns
    no key whatever the fuel: the loop does not advance [i], so after the
    field is copied it reads the argument list past its end. *)
Theorem fp_gather_S1_returns_no_key :
  field_bytes cxt_S1 [10]
    = Some [Some Byte.x01; Some Byte.x02; Some Byte.x03; Some Byte.x04] /\
  field_lengths cxt_S1 [10] = 4 /\
  (forall fuel, fp_gather (S (S fuel)) cxt_S1 4 1 [10] = Undefined) /\
  (forall fuel k, fp_gather fuel cxt_S1 4 1 [10] <> Ok k).
Proof.
  split; [reflexivity|]. split; [reflexivity|]. split.
  - intros fuel. vm_compute. reflexivity.
  - intros fuel k. by apply fp_gather_no_key.
Qed.





(** * Further properties of the code *)

(** ** The pool *)

Lemma alloc_many_seq (m : nat) (k : Z) (p : Pool) :
  pool_ok p -> pool_heap p ≡ₚ seqZ k (Z.of_nat m) ->
  exists p', alloc_many m p = Ok (seqZ k (Z.of_nat m), p') /\
    pool_heap p' = [] /\ pool_data p' = pool_data p.
Proof.
  revert k p. induction m as [|m IH]; intros k p Hok Hheap.
  - exists p. cbn. split; [done|]. split; [|done].
    by apply Permutation_nil_r in Hheap.
  - rewrite (seqZ_cons k (Z.of_nat (S m))) in Hheap |- * by lia.
    replace (Z.pred (Z.of_nat (S m))) with (Z.of_nat m) in * by lia.
    assert (pool_heap p <> []) as Hne.
    { intros He. rewrite He in Hheap. by apply Permutation_nil_cons in Hheap. }
    destruct (alloc_ok p Hok Hne) as (b & p1 & Ha & Hin & Hlow & Hperm & Hdata & _).
    assert (Buffer_id b = k) as Hbk.
    { assert (Buffer_id b <= k) by (apply Hlow; rewrite Hheap; apply list_elem_of_here).
      rewrite Hheap in Hin. apply elem_of_cons in Hin as [?|Hin]; [done|].
      apply elem_of_seqZ in Hin. lia. }
    rewrite Hbk in *.
    assert (pool_heap p1 ≡ₚ seqZ (Z.succ k) (Z.of_nat m)) as Hheap1.
    { apply (Permutation_cons_inv (a := k)). by rewrite <- Hperm. }
    destruct (IH (Z.succ k) p1 (alloc_keeps_ok _ _ _ Hok Ha) Hheap1)
      as (p' & Hmany & Hempty & Hdata').
    exists p'. cbn [alloc_many]. unfold_bind. rewrite Ha, Hmany, Hbk.
    split; [done|]. split; [done|]. congruence.
Qed.

(** X1. A pool made with [size] buffers hands them out in ascending order
    of index: [size] calls of [alloc] in a row return the buffers
    0, 1, ..., size-1, leave the free heap empty and the store as it was,
    and one more [alloc] after them is undefined. *)
Theorem fresh_pool_allocates_in_ascending_order (size : Z) (dp : Dataplane_ref) :
  exists p',
    alloc_many (Z.to_nat size) (Pool_ctor size dp) = Ok (seqZ 0 size, p') /\
    pool_heap p' = [] /\
    pool_data p' = pool_data (Pool_ctor size dp) /\
    alloc p' = Undefined.
Proof.
  destruct (alloc_many_seq (Z.to_nat size) 0 (Pool_ctor size dp) (Pool_ctor_ok size dp))
    as (p' & Hmany & Hempty & Hdata).
  { by rewrite seqZ_to_nat, Pool_ctor_heap. }
  exists p'. rewrite seqZ_to_nat in Hmany.
  split; [done|]. split; [done|]. split; [done|].
  unfold alloc. by rewrite Hempty.
Qed.

Lemma Pool_get_data (p q : Pool) (i : Z) :
  pool_data p = pool_data q -> Pool_get p i = Pool_get q i.
Proof. unfold Pool_get. by intros ->. Qed.

Lemma alloc_least_known (p : Pool) (i : Z) :
  pool_ok p -> i ∈ pool_heap p -> (forall x, x ∈ pool_heap p -> i <= x) ->
  exists b p', alloc p = Ok (b, p') /\ Buffer_id b = i /\
    pool_heap p ≡ₚ i :: pool_heap p' /\ pool_data p' = pool_data p /\
    Pool_get p i = Ok b.
Proof.
  intros Hok Hin Hlow.
  assert (pool_heap p <> []) as Hne by (intros He; rewrite He in Hin; by apply elem_of_nil in Hin).
  destruct (alloc_ok p Hok Hne) as (b & p' & Ha & Hbin & Hblow & Hperm & Hdata & Hget).
  assert (Buffer_id b = i) as Hbi.
  { specialize (Hlow _ Hbin). specialize (Hblow _ Hin). lia. }
  exists b, p'. rewrite Hbi in *. done.
Qed.

(** X2. Releasing the buffer that [alloc] has just returned undoes the
    [alloc]: the free set is as before, the store is untouched, and the
    next [alloc] returns that same buffer again. *)
Theorem alloc_then_dealloc_restores (p : Pool) :
  pool_ok p -> pool_heap p <> [] ->
  exists b p', alloc p = Ok (b, p') /\
    pool_heap (dealloc p' (Buffer_id b)) ≡ₚ pool_heap p /\
    pool_data (dealloc p' (Buffer_id b)) = pool_data p /\
    exists p'', alloc (dealloc p' (Buffer_id b)) = Ok (b, p'') /\
                pool_heap p'' ≡ₚ pool_heap p'.
Proof.
  intros Hok Hne.
  destruct (alloc_ok p Hok Hne) as (b & p' & Ha & Hin & Hlow & Hperm & Hdata & Hget).
  exists b, p'. split; [done|].
  assert (pool_heap (dealloc p' (Buffer_id b)) ≡ₚ pool_heap p) as Hback.
  { cbn. by rewrite Hperm. }
  split; [done|]. split; [done|].
  assert (pool_ok (dealloc p' (Buffer_id b))) as Hok'.
  { destruct Hok as [Hids Hrange]. split; cbn [dealloc pool_data pool_heap Heap.push].
    - by rewrite Hdata.
    - rewrite Hdata, <- Hperm. done. }
  destruct (alloc_least_known (dealloc p' (Buffer_id b)) (Buffer_id b) Hok')
    as (b2 & p2 & Ha2 & _ & Hperm2 & _ & Hget2).
  { apply list_elem_of_here. }
  { intros x Hx. apply Hlow. by rewrite <- Hback. }
  rewrite (Pool_get_data _ p) in Hget2 by done.
  rewrite Hget in Hget2. injection Hget2 as <-.
  exists p2. split; [done|].
  apply (Permutation_cons_inv (a := Buffer_id b)). by rewrite <- Hperm2.
Qed.

Lemma alloc_then_dealloc_restores_witness :
  exists b p', alloc (Pool_ctor 3 "dp0") = Ok (b, p') /\
    pool_heap (dealloc p' (Buffer_id b)) ≡ₚ pool_heap (Pool_ctor 3 "dp0") /\
    pool_data (dealloc p' (Buffer_id b)) = pool_data (Pool_ctor 3 "dp0") /\
    exists p'', alloc (dealloc p' (Buffer_id b)) = Ok (b, p'') /\
                pool_heap p'' ≡ₚ pool_heap p'.
Proof.
  apply (alloc_then_dealloc_restores (Pool_ctor 3 "dp0")).
  - split; [reflexivity|]. repeat constructor; cbn; lia.
  - discriminate.
Defined.

(** X3. [dealloc] does not look whether the index is handed out. When an
    index of the store that is no larger than any free index is released
    twice, the next two calls of [alloc] both return the buffer of that
    index: two callers hold the same buffer. *)
Theorem double_dealloc_hands_out_twice (p : Pool) (i : Z) :
  pool_ok p -> 0 <= i < Z.of_nat (length (pool_data p)) ->
  (forall x, x ∈ pool_heap p -> i <= x) ->
  exists b p1 p2,
    alloc (dealloc (dealloc p i) i) = Ok (b, p1) /\
    alloc p1 = Ok (b, p2) /\
    Buffer_id b = i /\
    pool_heap p2 ≡ₚ pool_heap p.
Proof.
  intros Hok Hi Hlow.
  assert (pool_ok (dealloc p i)) as Hok1 by by apply dealloc_keeps_ok.
  assert (pool_ok (dealloc (dealloc p i) i)) as Hok2 by by apply dealloc_keeps_ok.
  destruct (alloc_least_known _ i Hok2) as (b & p1 & Ha & Hb & Hperm & Hdata & Hget).
  { apply list_elem_of_here. }
  { intros x Hx. cbn in Hx. repeat (apply elem_of_cons in Hx as [->|Hx]; [lia|]). by apply Hlow. }
  assert (pool_heap p1 ≡ₚ i :: pool_heap p) as Hheap1.
  { apply (Permutation_cons_inv (a := i)). by rewrite <- Hperm. }
  destruct (alloc_least_known p1 i (alloc_keeps_ok _ _ _ Hok2 Ha))
    as (b' & p2 & Ha' & _ & Hperm' & _ & Hget').
  { rewrite Hheap1. apply list_elem_of_here. }
  { intros x Hx. rewrite Hheap1 in Hx. apply elem_of_cons in Hx as [->|Hx]; [lia|]. by apply Hlow. }
  rewrite (Pool_get_data p1 (dealloc (dealloc p i) i)) in Hget' by done.
  rewrite Hget in Hget'. injection Hget' as <-.
  exists b, p1, p2. split; [done|]. split; [done|]. split; [done|].
  apply (Permutation_cons_inv (a := i)). by rewrite <- Hperm', Hheap1.
Qed.

Lemma double_dealloc_hands_out_twice_witness :
  exists b p1 p2,
    alloc (dealloc (dealloc {| pool_data := pool_data (Pool_ctor 2 "dp0");
                               pool_heap := [1] |} 0) 0) = Ok (b, p1) /\
    alloc p1 = Ok (b, p2) /\
    Buffer_id b = 0 /\
    pool_heap p2 ≡ₚ [1].
Proof.
  apply (double_dealloc_hands_out_twice
           {| pool_data := pool_data (Pool_ctor 2 "dp0"); pool_heap := [1] |} 0).
  - split; [reflexivity|]. repeat constructor; cbn; lia.
  - vm_compute. split; [discriminate|reflexivity].
  - intros x Hx. apply list_elem_of_singleton in Hx. lia.
Defined.

Lemma least_below (i : Z) (h : list Z) :
  (forall x, x ∈ h -> i <= x) -> Heap.least i h = i.
Proof.
  intros Hlow. pose proof (least_le i h) as Hle.
  pose proof (least_elem i h) as Hin.
  apply elem_of_cons in Hin as [?|Hin]; [done|].
  specialize (Hlow _ Hin). lia.
Qed.

(** X4. [dealloc] accepts any integer. Once a negative index has been
    released into a well-formed pool it is the least free index, and the
    next [alloc] indexes the store with it: the result is undefined. *)
Theorem dealloc_negative_breaks_alloc (p : Pool) (i : Z) :
  pool_ok p -> i < 0 -> alloc (dealloc p i) = Undefined.
Proof.
  intros [_ Hrange] Hi. rewrite Forall_forall in Hrange.
  unfold alloc, dealloc, Heap.pop. cbn [pool_heap pool_data Heap.push Heap.top].
  rewrite least_below.
  - unfold Pool_get. by rewrite bool_decide_eq_false_2 by lia.
  - intros x Hx. specialize (Hrange x Hx). lia.
Qed.

Lemma dealloc_negative_breaks_alloc_witness :
  alloc (dealloc (Pool_ctor 2 "dp0") (-1)) = Undefined.
Proof.
  apply (dealloc_negative_breaks_alloc (Pool_ctor 2 "dp0") (-1)).
  - split; [reflexivity|]. repeat constructor; cbn; lia.
  - lia.
Defined.

Lemma run_op_data (o : pool_op) (st st' : pool_run) :
  run_op o st = Ok st' -> pool_data (run_pool st') = pool_data (run_pool st).
Proof.
  destruct o as [|i]; cbn.
  - pose proof (alloc_data (run_pool st)) as Hd. unfold_bind.
    destruct (alloc (run_pool st)) as [[b p']| | |]; [|done..].
    by intros [= <-].
  - by intros [= <-].
Qed.

Lemma run_ops_data (ops : list pool_op) (st st' : pool_run) :
  run_ops ops st = Ok st' -> pool_data (run_pool st') = pool_data (run_pool st).
Proof.
  revert st. induction ops as [|o ops IH]; intros st; cbn.
  - by intros [= <-].
  - unfold_bind. destruct (run_op o st) as [st1| | |] eqn:Hop; [|done..].
    intros Hrun. rewrite (IH _ Hrun). by apply (run_op_data o).
Qed.

Lemma Pool_get_range (p : Pool) (i : Z) :
  (exists b, Pool_get p i = Ok b) <-> 0 <= i < Z.of_nat (length (pool_data p)).
Proof.
  unfold Pool_get. case_bool_decide as Hi.
  - destruct (pool_data p !! Z.to_nat i) as [b|] eqn:Hl.
    + apply lookup_lt_Some in Hl. split; [lia|eauto].
    + apply lookup_ge_None in Hl. split; [by intros [b ?]|lia].
  - split; [by intros [b ?]|lia].
Qed.

(** X5. [operator[]] of a pool made with [size] buffers gives the same
    answer after any calls of [alloc] and [dealloc] that ran (allowed ones
    or not) as right after construction: it yields a buffer exactly for the
    indices [0 <= idx < size], the one whose [id()] is [idx], and is
    undefined for every other index. *)
Theorem pool_index_operator_is_stable
    (size : Z) (dp : Dataplane_ref) (ops : list pool_op) (st : pool_run) (idx : Z) :
  run_ops ops (run_start size dp) = Ok st ->
  Pool_get (run_pool st) idx = Pool_get (Pool_ctor size dp) idx /\
  ((exists b, Pool_get (run_pool st) idx = Ok b) <-> 0 <= idx < size) /\
  (forall b, Pool_get (run_pool st) idx = Ok b -> Buffer_id b = idx) /\
  (~ 0 <= idx < size -> Pool_get (run_pool st) idx = Undefined).
Proof.
  intros Hrun. apply run_ops_data in Hrun. cbn in Hrun.
  rewrite (Pool_get_data _ (Pool_ctor size dp)) by done.
  split; [done|].
  assert ((exists b, Pool_get (Pool_ctor size dp) idx = Ok b) <-> 0 <= idx < size) as Hr.
  { rewrite Pool_get_range, Pool_ctor_length. lia. }
  split; [done|]. split.
  - intros b Hb.
    assert (0 <= idx < size) as Hi by (apply Hr; eauto).
    destruct (Pool_get_ok (Pool_ctor size dp) idx (Pool_ctor_ok size dp)) as (b' & Hb' & Hid).
    { rewrite Pool_ctor_length. lia. }
    congruence.
  - intros Hn. unfold Pool_get in *.
    case_bool_decide; [|done].
    destruct (pool_data (Pool_ctor size dp) !! Z.to_nat idx) eqn:Hl; [|done].
    destruct Hn. apply Hr. eauto.
Qed.

Lemma pool_index_operator_is_stable_witness :
  exists st,
    run_ops [Alloc; Dealloc 5; Alloc] (run_start 2 "dp0") = Ok st /\
    Pool_get (run_pool st) 1 = Pool_get (Pool_ctor 2 "dp0") 1 /\
    ((exists b, Pool_get (run_pool st) 1 = Ok b) <-> 0 <= 1 < 2) /\
    (forall b, Pool_get (run_pool st) 1 = Ok b -> Buffer_id b = 1) /\
    (~ 0 <= 1 < 2 -> Pool_get (run_pool st) 1 = Undefined).
Proof.
  eexists. split; [vm_compute; reflexivity|].
  apply (pool_index_operator_is_stable 2 "dp0" [Alloc; Dealloc 5; Alloc]).
  vm_compute. reflexivity.
Defined.

(** ** The system tables *)

(** X6. [load_application(path)] throws the has-already-been-loaded message
    exactly when the module table has an entry for [path]; otherwise it
    adds one entry, an application made from [path] in state [INIT], and
    leaves every other entry as it was. *)
Theorem load_application_registers_once
    (path : string) (module_table : gmap string Application) :
  (is_Some (module_table !! path) <->
   load_application path module_table
     = Throw (StdString ("Application at '" +:+ path +:+ "' has already been loaded"))) /\
  (module_table !! path = None ->
   exists module_table',
     load_application path module_table = Ok module_table' /\
     module_table' !! path = Some {| lib_path := path; state_ := INIT |} /\
     (forall other, other <> path -> module_table' !! other = module_table !! other) /\
     size module_table' = S (size module_table)).
Proof.
  unfold load_application, umap_insert. case_bool_decide as Hl.
  - split; [done|]. intros Hn. rewrite Hn in Hl. by destruct Hl.
  - assert (module_table !! path = None) as Hn by by apply eq_None_not_Some.
    rewrite Hn. split; [split; [done|discriminate]|].
    intros _. eexists. split; [done|].
    split; [by rewrite lookup_insert_eq|].
    split; [intros other Ho; by rewrite lookup_insert_ne|].
    by apply map_size_insert_None.
Qed.

(** X7. [unload_application] never removes an application: no call returns
    a module table. When the module table has an entry for [path] the call
    throws the is-not-loaded message; when it has none the call goes on to
    erase the end iterator, which is undefined. In particular, for a path
    that [load_application] has just registered it throws, and the table
    keeps the entry. So what is loaded once stays loaded. *)
Theorem unload_application_never_unloads
    (path : string) (module_table : gmap string Application) :
  (forall module_table', unload_application path module_table <> Ok module_table') /\
  (is_Some (module_table !! path) ->
   unload_application path module_table
     = Throw (StdString ("Application at '" +:+ path +:+ "' is not loaded."))) /\
  (module_table !! path = None ->
   unload_application path module_table = Undefined) /\
  (forall module_table1,
     load_application path module_table = Ok module_table1 ->
     is_Some (module_table1 !! path) /\
     unload_application path module_table1
       = Throw (StdString ("Application at '" +:+ path +:+ "' is not loaded."))).
Proof.
  split; [|split; [|split]].
  - intros mt'. unfold unload_application, umap_erase_found.
    case_bool_decide as Hl; [done|].
    assert (module_table !! path = None) as Hn by by apply eq_None_not_Some.
    by rewrite Hn.
  - intros Hs. unfold unload_application. by rewrite bool_decide_eq_true_2.
  - intros Hn. unfold unload_application, umap_erase_found.
    rewrite bool_decide_eq_false_2; [by rewrite Hn|].
    rewrite Hn. by intros [a ?].
  - intros mt1. unfold load_application, umap_insert.
    case_bool_decide as Hl; [done|].
    assert (module_table !! path = None) as Hn by by apply eq_None_not_Some.
    rewrite Hn. intros [= <-].
    assert (is_Some (<[path:=Application_ctor path]> module_table !! path)) as Hs.
    { rewrite lookup_insert_eq. eauto. }
    split; [done|]. unfold unload_application.
    by rewrite bool_decide_eq_true_2.
Qed.

(** X8. [delete_dataplane(name)] throws the name-not-in-use message exactly
    when the registry has no dataplane of that name; otherwise it removes
    that one entry and leaves every other entry as it was. *)
Theorem delete_dataplane_removes_one
    (name : string) (dataplane_table : gmap string Dataplane) :
  (dataplane_table !! name = None <->
   delete_dataplane name dataplane_table
     = Throw (StdString "Data plane name not in use")) /\
  (is_Some (dataplane_table !! name) ->
   exists dataplane_table',
     delete_dataplane name dataplane_table = Ok dataplane_table' /\
     dataplane_table' !! name = None /\
     (forall other, other <> name -> dataplane_table' !! other = dataplane_table !! other) /\
     S (size dataplane_table') = size dataplane_table).
Proof.
  unfold delete_dataplane, umap_erase_found. case_bool_decide as Hl.
  - destruct Hl as [dp Hdp]. rewrite Hdp.
    split; [split; [congruence|discriminate]|].
    intros _. eexists. split; [done|].
    split; [by rewrite lookup_delete_eq|].
    split; [intros other Ho; by rewrite lookup_delete_ne|].
    rewrite (map_size_delete_Some name dataplane_table) by eauto.
    assert (size dataplane_table <> 0%nat); [|lia].
    intros Hz. apply map_size_empty_inv in Hz. by rewrite Hz in Hdp.
  - assert (dataplane_table !! name = None) as Hn by by apply eq_None_not_Some.
    split; [done|]. intros Hs. rewrite Hn in Hs. by destruct Hs.
Qed.

(** X9. A dataplane that [create_dataplane] has registered is the one the
    registry holds under its name; creating the same name again throws;
    and [delete_dataplane] of that name gives back the registry as it was
    before the creation. *)
Theorem create_then_delete_dataplane
    (name app app' : string) (dataplane_table dataplane_table1 : gmap string Dataplane)
    (dp : Dataplane) :
  create_dataplane name app dataplane_table = Ok (dp, dataplane_table1) ->
  dataplane_table1 !! name = Some dp /\
  dp_name dp = name /\ dp_app dp = app /\ dp_tables dp = [] /\
  create_dataplane name app' dataplane_table1
    = Throw (StdString "Data plane name already exists") /\
  delete_dataplane name dataplane_table1 = Ok dataplane_table.
Proof.
  unfold create_dataplane, umap_insert, umap_at.
  case_bool_decide as Hl; [done|].
  assert (dataplane_table !! name = None) as Hn by by apply eq_None_not_Some.
  rewrite Hn, lookup_insert_eq. cbn. intros [= <- <-].
  assert (is_Some (<[name:=Dataplane_ctor name app]> dataplane_table !! name)) as Hs.
  { rewrite lookup_insert_eq. eauto. }
  split; [by rewrite lookup_insert_eq|]. do 3 (split; [done|]). split.
  - by rewrite bool_decide_eq_true_2.
  - unfold delete_dataplane, umap_erase_found.
    rewrite bool_decide_eq_true_2 by done.
    rewrite lookup_insert_eq. f_equal. by apply delete_insert_id.
Qed.

Lemma create_then_delete_dataplane_witness :
  (<["dp1" := Dataplane_ctor "dp1" "app"]> (∅ : gmap string Dataplane)) !! "dp1"
    = Some (Dataplane_ctor "dp1" "app") /\
  dp_name (Dataplane_ctor "dp1" "app") = "dp1" /\
  dp_app (Dataplane_ctor "dp1" "app") = "app" /\
  dp_tables (Dataplane_ctor "dp1" "app") = [] /\
  create_dataplane "dp1" "other" (<["dp1" := Dataplane_ctor "dp1" "app"]> ∅)
    = Throw (StdString "Data plane name already exists") /\
  delete_dataplane "dp1" (<["dp1" := Dataplane_ctor "dp1" "app"]> ∅) = Ok ∅.
Proof.
  apply (create_then_delete_dataplane "dp1" "app" "other" ∅).
  reflexivity.
Defined.

(** ** Tables *)

(** X10. [fp_create_table] gives back a table exactly for the type [EXACT],
    and then the table carries the id, size and key width asked for and is
    the one new, last entry of the dataplane's table list. Whenever the
    call returns, the tables that were there are still there, in place, and
    the dataplane keeps its name and application. The call throws exactly
    for a type value that is none of the three enumerators. *)
Theorem fp_create_table_appends_exact_only
    (dp : Dataplane) (id size key_width : Z) (type : Table_Type) :
  (type = EXACT <->
   exists tbl dp', fp_create_table dp id size key_width type = Ok (Some tbl, dp')) /\
  (forall tbl dp',
     fp_create_table dp id size key_width type = Ok (Some tbl, dp') ->
     dp_tables dp' = dp_tables dp ++ [tbl] /\
     tbl_id tbl = id /\ tbl_size tbl = size /\ tbl_key_size tbl = key_width) /\
  (forall r dp',
     fp_create_table dp id size key_width type = Ok (r, dp') ->
     dp_tables dp `prefix_of` dp_tables dp' /\
     dp_name dp' = dp_name dp /\ dp_app dp' = dp_app dp) /\
  ((exists v, type = Other_type v) <->
   fp_create_table dp id size key_width type
     = Throw (StdString "Unknown table type given")).
Proof.
  destruct type as [| | |v]; cbn.
  - split; [split; [eauto|done]|].
    split; [by intros tbl dp' [= <- <-]|].
    split; [|split; [by intros [v ?]|done]].
    intros r dp' [= <- <-]. cbn. split; [by apply prefix_app_r|done].
  - split; [split; [done|by intros (tbl & dp' & ?)]|].
    split; [done|].
    split; [by intros r dp' [= <- <-]|].
    split; [by intros [v ?]|done].
  - split; [split; [done|by intros (tbl & dp' & ?)]|].
    split; [done|].
    split; [by intros r dp' [= <- <-]|].
    split; [by intros [v ?]|done].
  - split; [split; [done|by intros (tbl & dp' & ?)]|].
    split; [done|]. split; [done|].
    split; [done|eauto].
Qed.

(** ** The gather *)

(** X11. [fp_gather] returns a key only when it is asked for no field
    ([n <= 0]) and the key width is within the gather buffer. The key is
    then [key_width] bytes of the buffer that were never written, whatever
    the context and the argument list hold. *)
Theorem fp_gather_returns_only_for_no_field
    (cxt : Context) (key_width n : Z) (args : list Z) (k : Key) :
  (exists fuel, fp_gather fuel cxt key_width n args = Ok k) <->
  n <= 0 /\ 0 <= key_width <= key_size /\
  k = replicate (Z.to_nat key_width) (None : Cell).
Proof.
  split.
  - intros [fuel Hk].
    destruct (decide (0 < n)) as [Hn|Hn].
    { by apply fp_gather_no_key in Hk. }
    split; [lia|].
    destruct fuel as [|fuel]; [done|].
    unfold fp_gather in Hk.
    remember (replicate (Z.to_nat key_size) (None : Cell)) as buf0 eqn:Hbuf0.
    cbn [fp_gather_loop] in Hk.
    rewrite bool_decide_eq_false_2 in Hk by done.
    unfold mbind, outcome_bind, bind, Key_ctor in Hk.
    case_bool_decide as Hw; [|done].
    injection Hk as <-. subst buf0. rewrite length_replicate in Hw.
    unfold key_size in *.
    split; [lia|]. rewrite take_replicate. f_equal. lia.
  - intros (Hn & Hw & ->). exists 1%nat.
    unfold fp_gather. cbn [fp_gather_loop].
    rewrite bool_decide_eq_false_2 by lia.
    unfold mbind, outcome_bind, bind, Key_ctor.
    rewrite length_replicate. unfold key_size in *.
    rewrite bool_decide_eq_true_2 by lia.
    rewrite take_replicate. do 2 f_equal. lia.
Qed.

Lemma copy_into_twice (p r buf : list Cell) (j : nat) :
  (j + length p + length r <= length buf)%nat ->
  take (j + length p) (take j buf ++ p ++ drop (j + length p) buf) ++ r ++
    drop (j + length p + length r) (take j buf ++ p ++ drop (j + length p) buf)
  = take j buf ++ (p ++ r) ++ drop (j + length (p ++ r)) buf.
Proof.
  intros Hfit.
  assert (length (take j buf ++ p) = (j + length p)%nat) as Hl.
  { rewrite length_app, length_take. lia. }
  rewrite (app_assoc (take j buf) p).
  rewrite (take_app_length' _ _ (j + length p)) by done.
  rewrite (drop_app_add' _ _ (j + length p) (length r)) by done.
  rewrite drop_drop, length_app, <- !app_assoc.
  by rewrite Nat.add_assoc.
Qed.

Lemma fp_gather_rounds_layout (cxt : Context) (pre rest : list Z) :
  forall (j : nat) (buf bs : list Cell),
    field_bytes cxt pre = Some bs ->
    (j + length bs <= length buf)%nat ->
    fp_gather_rounds (length pre) cxt (Z.of_nat j, pre ++ rest, buf)
    = Ok (Z.of_nat (j + length bs), rest,
          take j buf ++ bs ++ drop (j + length bs) buf).
Proof.
  induction pre as [|f pre IH]; intros j buf bs Hbs Hfit.
  - injection Hbs as <-. cbn [length app Nat.add fp_gather_rounds].
    by rewrite Nat.add_0_r, take_drop.
  - cbn [field_bytes] in Hbs.
    destruct (get_field_binding cxt f) as [b| | |] eqn:Hb; [|done..].
    destruct (get_field cxt (b_offset b) (b_length b)) as [p| | |] eqn:Hp; [|done..].
    destruct (field_bytes cxt pre) as [r|] eqn:Hr; [|done].
    injection Hbs as <-. pose proof Hfit as Hfit'. rewrite length_app in Hfit'.
    pose proof (get_field_length _ _ _ _ Hp) as Hlen.
    cbn [length app fp_gather_rounds]. unfold fp_gather_body. cbn [va_arg].
    unfold mbind, outcome_bind, bind. rewrite Hb, Hp.
    unfold copy_into. rewrite bool_decide_eq_true_2 by lia.
    rewrite Nat2Z.id.
    replace (Z.of_nat j + b_length b) with (Z.of_nat (j + length p)) by lia.
    fold (@bind (Z * list Z * list Cell) (Z * list Z * list Cell)).
    rewrite (IH (j + length p)%nat _ r eq_refl).
    + rewrite copy_into_twice by lia.
      by rewrite length_app, Nat.add_assoc.
    + rewrite !length_app, length_take, length_drop. lia.
Qed.

Lemma fp_gather_loop_rounds (cxt : Context) (n i : Z) (k fuel : nat) :
  i < n ->
  forall (j : Z) (args : list Z) (buf : list Cell),
    fp_gather_loop (k + fuel) cxt n i j args buf
    = ('(j', args', buf') ← fp_gather_rounds k cxt (j, args, buf);
       fp_gather_loop fuel cxt n i j' args' buf').
Proof.
  intros Hi. induction k as [|k IH]; intros j args buf; [done|].
  cbn [Nat.add fp_gather_loop fp_gather_rounds].
  rewrite bool_decide_eq_true_2 by done.
  unfold fp_gather_body. unfold mbind, outcome_bind, bind.
  destruct (va_arg args) as [[f args']| | |]; [|done..].
  destruct (get_field_binding cxt f) as [b| | |]; [|done..].
  destruct (get_field cxt (b_offset b) (b_length b)) as [p| | |]; [|done..].
  destruct (copy_into p j buf) as [buf'| | |]; [|done..].
  apply IH.
Qed.

(** X12. The rounds of the loop of [fp_gather] lay the fields out one
    behind the other. Started at position [j] of the buffer with a run of
    listed ids that are bound to bytes inside the packet and fit the
    buffer from [j] on, one round per id leaves the loop with [j] moved
    behind those bytes, the ids that follow still to read, and a buffer
    that holds the bytes of those fields, in the order listed, from the old
    [j] on and is otherwise as it was. While [i < n], the loop is these
    rounds followed by the rest of the loop. *)
Theorem fp_gather_rounds_copy_fields_in_order
    (cxt : Context) (pre rest : list Z) (j : nat) (buf bs : list Cell) :
  field_bytes cxt pre = Some bs ->
  (j + length bs <= length buf)%nat ->
  fp_gather_rounds (length pre) cxt (Z.of_nat j, pre ++ rest, buf)
  = Ok (Z.of_nat (j + length bs), rest,
        take j buf ++ bs ++ drop (j + length bs) buf) /\
  (forall (n i : Z) (k fuel : nat) (j0 : Z) (args : list Z) (buf0 : list Cell),
     i < n ->
     fp_gather_loop (k + fuel) cxt n i j0 args buf0
     = ('(j', args', buf') ← fp_gather_rounds k cxt (j0, args, buf0);
        fp_gather_loop fuel cxt n i j' args' buf')).
Proof.
  intros Hbs Hfit. split.
  - by apply fp_gather_rounds_layout.
  - intros n i k fuel j0 args buf0 Hi. by apply fp_gather_loop_rounds.
Qed.

Lemma fp_gather_rounds_copy_fields_in_order_witness :
  fp_gather_rounds 2 cxt_S1 (2, [10; 10; 11], replicate 12 None)
  = Ok (10, [11],
        [None; None;
         Some Byte.x01; Some Byte.x02; Some Byte.x03; Some Byte.x04;
         Some Byte.x01; Some Byte.x02; Some Byte.x03; Some Byte.x04;
         None; None]).
Proof.
  apply (proj1 (fp_gather_rounds_copy_fields_in_order cxt_S1 [10; 10] [11] 2
                  (replicate 12 None)
                  [Some Byte.x01; Some Byte.x02; Some Byte.x03; Some Byte.x04;
                   Some Byte.x01; Some Byte.x02; Some Byte.x03; Some Byte.x04]
                  ltac:(reflexivity) ltac:(cbn; lia))).
Defined.

Lemma fp_gather_loop_overrun (cxt : Context) (n : Z) (args : list Z) :
  0 < n ->
  forall (fuel : nat) (j : Z) (buf bs : list Cell),
    field_bytes cxt args = Some bs ->
    0 <= j <= Z.of_nat (length buf) ->
    Z.of_nat (length buf) < j + Z.of_nat (length bs) ->
    fp_gather_loop (length args + fuel) cxt n 0 j args buf = Undefined.
Proof.
  intros Hn. induction args as [|f args IH]; intros fuel j buf bs Hbs Hj Hover.
  - injection Hbs as <-. cbn in Hover. lia.
  - cbn [field_bytes] in Hbs.
    destruct (get_field_binding cxt f) as [b| | |] eqn:Hb; [|done..].
    destruct (get_field cxt (b_offset b) (b_length b)) as [p| | |] eqn:Hp; [|done..].
    destruct (field_bytes cxt args) as [r|] eqn:Hr; [|done].
    injection Hbs as <-. rewrite length_app in Hover.
    pose proof (get_field_length _ _ _ _ Hp) as Hlen.
    cbn [length Nat.add fp_gather_loop va_arg].
    rewrite bool_decide_eq_true_2 by done.
    unfold mbind, outcome_bind, bind. rewrite Hb, Hp.
    destruct (copy_into p j buf) as [buf1| | |] eqn:Hcopy.
    + pose proof (copy_into_length _ _ _ _ Hcopy) as Hlen1.
      unfold copy_into in Hcopy. case_bool_decide as Hfit; [|done].
      apply (IH fuel _ buf1 r eq_refl); lia.
    + unfold copy_into in Hcopy. by case_bool_decide.
    + done.
    + unfold copy_into in Hcopy. by case_bool_decide.
Qed.

(** X13. [fp_gather] copies into a buffer of [key_size] bytes without
    looking at its size. When the listed fields are all bound to bytes
    inside the packet and together are longer than the buffer, the copy
    runs over the end of the buffer: with fuel for one round per listed id
    the result is undefined. *)
Theorem fp_gather_overruns_buffer
    (cxt : Context) (key_width n : Z) (args : list Z) (bs : list Cell) (fuel : nat) :
  0 < n ->
  field_bytes cxt args = Some bs ->
  key_size < Z.of_nat (length bs) ->
  fp_gather (length args + fuel) cxt key_width n args = Undefined.
Proof.
  intros Hn Hbs Hover. unfold fp_gather.
  rewrite (fp_gather_loop_overrun cxt n args Hn fuel 0 _ bs Hbs); [done|..];
    rewrite length_replicate; unfold key_size in *; lia.
Qed.

Lemma fp_gather_overruns_buffer_witness :
  fp_gather (length (replicate 33 10) + 0) cxt_S1 4 33 (replicate 33 10) = Undefined.
Proof.
  eapply (fp_gather_overruns_buffer cxt_S1 4 33 (replicate 33 10) _ 0%nat).
  - lia.
  - vm_compute. reflexivity.
  - vm_compute. reflexivity.
Defined.

(** ** The queues *)

Lemma Queue_enqueue_all (T : Type) (q xs : list T) :
  foldl (fun q x => Queue_enqueue x q) q xs = q ++ xs.
Proof.
  revert q. induction xs as [|x xs IH]; intros q; cbn.
  - by rewrite app_nil_r.
  - rewrite IH. unfold Queue_enqueue. by rewrite <- app_assoc.
Qed.

Lemma Queue_dequeue_many_app (T : Type) (a b : list T) :
  Queue_dequeue_many (length a) (a ++ b) = Ok (a, b).
Proof.
  induction a as [|x a IH]; [done|].
  cbn. unfold mbind, outcome_bind, bind. by rewrite IH.
Qed.

(** X14. [Queue] is first in, first out: after the values [xs] have been
    enqueued, in order, behind what the queue [q] held, as many calls of
    [dequeue] as there are elements return the old elements and then [xs],
    in that order, and leave the queue empty; [empty()] is then true, and
    one call of [dequeue] more is undefined, since [dequeue] reads the
    front without a test. *)
Theorem Queue_is_fifo (T : Type) (q xs : Queue T) :
  Queue_dequeue_many (length q + length xs)
    (foldl (fun q x => Queue_enqueue x q) q xs) = Ok (q ++ xs, []) /\
  Queue_empty (foldl (fun q x => Queue_enqueue x q) q xs)
    = bool_decide (q ++ xs = []) /\
  Queue_dequeue_many (S (length q + length xs))
    (foldl (fun q x => Queue_enqueue x q) q xs) = Undefined.
Proof.
  rewrite Queue_enqueue_all, <- length_app.
  pose proof (Queue_dequeue_many_app T (q ++ xs) []) as Hall.
  rewrite app_nil_r in Hall. split; [done|]. split.
  - by destruct (q ++ xs).
  - replace (S (length (q ++ xs))) with (length (q ++ xs) + 1)%nat by lia.
    generalize (q ++ xs). clear. intros l.
    induction l as [|x l IH]; [done|].
    cbn [length Nat.add Queue_dequeue_many Queue_dequeue].
    unfold mbind, outcome_bind, bind in *. by rewrite IH.
Qed.

Lemma Locked_queue_enqueue_all (T : Type) (q xs : list T) :
  foldl (fun q x => Locked_queue_enqueue x q) q xs = q ++ xs.
Proof.
  revert q. induction xs as [|x xs IH]; intros q; cbn.
  - by rewrite app_nil_r.
  - rewrite IH. unfold Locked_queue_enqueue. by rewrite <- app_assoc.
Qed.

Lemma last_default (T : Type) (l : list T) (x v : T) :
  l <> [] -> List.last l x = List.last l v.
Proof.
  induction l as [|a l IH]; [done|]. intros _.
  destruct l as [|b l]; [done|].
  change (List.last (b :: l) x = List.last (b :: l) v). by apply IH.
Qed.

Lemma last_behind (T : Type) (l : list T) (x v : T) :
  List.last l x = List.last (x :: l) v.
Proof.
  destruct l as [|a l]; [done|].
  change (List.last (a :: l) x = List.last (a :: l) v). by apply last_default.
Qed.

Lemma Locked_queue_drain_step (T : Type) (k : nat) (v : T) (q : Locked_queue T) :
  Locked_queue_drain (S k) v q =
  match Locked_queue_dequeue v q with
  | (true, v', q') =>
      let '(xs, v'', q'') := Locked_queue_drain k v' q' in (v' :: xs, v'', q'')
  | (false, v', q') => ([], v', q')
  end.
Proof. reflexivity. Qed.

Lemma Locked_queue_drain_all (T : Type) (l : list T) (v : T) (k : nat) :
  Locked_queue_drain (S (length l) + k) v l = (l, List.last l v, []).
Proof.
  revert v. induction l as [|x l IH]; intros v; [done|].
  change (S (length (x :: l)) + k)%nat with (S (S (length l) + k)).
  rewrite Locked_queue_drain_step. cbn [Locked_queue_dequeue].
  rewrite IH. f_equal. f_equal. apply last_behind.
Qed.

(** X15. [Locked_queue] is first in, first out, and its [dequeue] stops
    cleanly on an empty queue: after the values [xs] have been enqueued, in
    order, behind what the queue [q] held, a consumer that calls [dequeue]
    until it returns false is handed the old elements and then [xs], in
    that order; the queue is then empty, and the variable passed to
    [dequeue] holds the last value handed over (its old value when there
    was none). *)
Theorem Locked_queue_is_fifo (T : Type) (q xs : Locked_queue T) (v : T) (k : nat) :
  Locked_queue_drain (S (length (q ++ xs)) + k) v
    (foldl (fun q x => Locked_queue_enqueue x q) q xs)
  = (q ++ xs, List.last (q ++ xs) v, []) /\
  Locked_queue_dequeue v [] = (false, v, []).
Proof.
  rewrite Locked_queue_enqueue_all. split; [|done]. apply Locked_queue_drain_all.
Qed.

Lemma Locked_queue_empty_is_size_aux (T : Type) (q : Locked_queue T) :
  Z.of_nat (length q) <= INT_MAX ->
  (q <> [] -> Locked_queue_empty q = true) /\
  (q = [] -> Locked_queue_empty q = false).
Proof.
  intros Hlen. unfold Locked_queue_empty, Locked_queue_size.
  rewrite to_int_small by lia. split.
  - intros Hne. destruct q as [|x q']; [done|].
    cbn [length]. by destruct (Z.eqb_spec (Z.of_nat (S (length q'))) 0); [lia|].
  - by intros ->.
Qed.

(** X16. For a [Locked_queue] whose element count fits an [int], what
    [empty()] returns is what the next [dequeue] returns: when [empty()] is
    true, [dequeue] succeeds and hands over the front element; when
    [empty()] is false, [dequeue] returns false and changes neither the
    queue nor the variable it was given. *)
Theorem Locked_queue_empty_agrees_with_dequeue (T : Type) (q : Locked_queue T) (v : T) :
  Z.of_nat (length q) <= INT_MAX ->
  match Locked_queue_dequeue v q with
  | (ok, v', q') =>
      ok = Locked_queue_empty q /\
      (Locked_queue_empty q = true -> q = v' :: q') /\
      (Locked_queue_empty q = false -> v' = v /\ q' = q)
  end.
Proof.
  intros Hlen.
  destruct (Locked_queue_empty_is_size_aux T q Hlen) as [Ht Hf].
  destruct q as [|x q']; cbn [Locked_queue_dequeue].
  - assert (Locked_queue_empty (@nil T) = false) as He by by apply Hf.
    rewrite He. done.
  - assert (Locked_queue_empty (x :: q') = true) as He by by apply Ht.
    rewrite He. done.
Qed.

Lemma Locked_queue_empty_agrees_with_dequeue_witness :
  match Locked_queue_dequeue 0 [7; 8] with
  | (ok, v', q') =>
      ok = Locked_queue_empty [7; 8] /\
      (Locked_queue_empty [7; 8] = true -> [7; 8] = v' :: q') /\
      (Locked_queue_empty [7; 8] = false -> v' = 0 /\ q' = [7; 8])
  end.
Proof.
  apply (Locked_queue_empty_agrees_with_dequeue Z [7; 8] 0).
  unfold INT_MAX. cbn. lia.
Defined.
